(** * Layered [.env] resolution: a shallow embedding of [src/load-dotenv.ts]

    The module under study exports two things:
    - [loadDotEnvFiles basePath options], which probes four candidate files
      and merges what the dotenvx parser reads from them;
    - [LoadDotEnv], whose ["shell.env"] hook copies the loaded entries into
      the environment of a shell that is about to be spawned.

    Everything the TypeScript code obtains from outside (the [path], [fs]
    and [@dotenvx/dotenvx] packages, and [process.env]) is gathered in a
    [Host] record.  Effects are kept: a computation yields an outcome
    (returned value or thrown exception) together with the trace of the
    external calls it performed. *)

From stdpp Require Import gmap strings list fin_maps.

Open Scope string_scope.
Open Scope list_scope.
Open Scope stdpp_scope.

(** ** Data model *)

(** [Record<string, string>]: a JavaScript object used as a dictionary. *)
Abbreviation Env := (gmap string string).

(** The error object found in [result.error]; only its optional [code]
    is inspected by the source. *)
Record DotenvError := { code : option string; message : string }.

Global Instance DotenvError_eq_dec : EqDecision DotenvError.
Proof. solve_decision. Defined.

(** What [config] hands back: the source reads only [result.error]. *)
Record ConfigResult := { parsed : Env; error : option DotenvError }.

(** [LoadDotEnvOptions]: both fields are optional. *)
Record LoadDotEnvOptions := { nodeEnv : option string; overload : option bool }.

(** The default value [{}] of the [options] parameter. *)
Definition emptyOptions : LoadDotEnvOptions :=
  {| nodeEnv := None; overload := None |}.

(** ** Effects *)

(** The observable external calls, in program order. *)
Inductive Event :=
| EvAccess (filePath : string)
| EvConfig (path : string) (overloadFlag : bool) (reported : option DotenvError)
| EvConsoleError (file : string) (err : DotenvError).

Global Instance Event_eq_dec : EqDecision Event.
Proof. solve_decision. Defined.

Inductive Outcome (A : Type) :=
| Returned (a : A)
| Thrown (exn : string).
Arguments Returned {A} a.
Arguments Thrown {A} exn.

(** A computation: its outcome and the events it emitted. *)
Definition M (A : Type) : Type := Outcome A * list Event.

Definition ret {A} (a : A) : M A := (Returned a, []).

Definition throw {A} (exn : string) : M A := (Thrown exn, []).

Definition bind {A B} (m : M A) (k : A → M B) : M B :=
  match m with
  | (Returned a, t) => let '(o, t') := k a in (o, t ++ t')
  | (Thrown exn, t) => (Thrown exn, t)
  end.

(** [try { m } catch { h }] *)
Definition try_catch {A} (m : M A) (h : string → M A) : M A :=
  match m with
  | (Returned a, t) => (Returned a, t)
  | (Thrown exn, t) => let '(o, t') := h exn in (o, t ++ t')
  end.

Definition emit (ev : Event) : M unit := (Returned (), [ev]).

Notation "'let*' x := m 'in' k" := (bind m (λ x, k))
  (at level 10, x name, m at level 100, k at level 200,
   format "'[' 'let*'  x  :=  m  'in' ']' '/' k").
Notation "'do' m 'then' k" := (bind m (λ _, k))
  (at level 10, m at level 100, k at level 200,
   format "'[' 'do'  m  'then' ']' '/' k").

Definition outcome {A} (m : M A) : Outcome A := m.1.
Definition trace {A} (m : M A) : list Event := m.2.

(** ** JavaScript operators used by the source *)

(** [a || b] where [a] is an optional string: [undefined] and the empty
    string are both falsy. *)
Definition str_or (a : option string) (b : string) : string :=
  match a with
  | Some (String c s) => String c s
  | _ => b
  end.

(** [a ?? b]: only [undefined] (or [null]) selects [b]. *)
Definition nullish_or (a : option string) (b : string) : string :=
  default b a.

(** Truthiness of an optional boolean such as [options.overload]. *)
Definition truthy (b : option bool) : bool := default false b.

(** The property names every ordinary object inherits from
    [Object.prototype]. *)
Definition Object_prototype : list string :=
  [ "constructor"; "hasOwnProperty"; "isPrototypeOf"; "propertyIsEnumerable";
    "toLocaleString"; "toString"; "valueOf"; "__proto__";
    "__defineGetter__"; "__defineSetter__"; "__lookupGetter__";
    "__lookupSetter__" ].

(** [key in obj] for a dictionary object, an ordinary object whose
    prototype is [Object.prototype]: the operator sees the object's own
    entries and the names it inherits. *)
Definition key_in (key : string) (obj : Env) : bool :=
  bool_decide (is_Some (obj !! key) ∨ key ∈ Object_prototype).

(** The entries of a mapping whose key is not an inherited name. *)
Definition notInherited (m : Env) : Env :=
  filter (λ entry, entry.1 ∉ Object_prototype) m.

(** ** The host: everything imported from outside the module *)

Record Host := {
  (** [join] of the [path] package. *)
  join : string → string → string;
  (** [access] of [fs/promises]: [None] when the promise is fulfilled,
      [Some exn] when it is rejected with [exn]. *)
  fs_access : string → option string;
  (** What dotenvx reads from a file, given the mode and the target
      mapping (used for variable expansion): the keys and values it
      obtained and the error it reports, if any. *)
  dotenvx_read : string → bool → Env → ConfigResult;
  (** [process.env.NODE_ENV]. *)
  NODE_ENV : option string
}.

Section LoadDotEnv.

Variable host : Host.

Definition access (filePath : string) : M unit :=
  do emit (EvAccess filePath) then
  match fs_access host filePath with
  | None => ret ()
  | Some exn => throw exn
  end.

(** Modelled from the spec: [config] of the external package
    [@dotenvx/dotenvx], the File Parser/Decryptor of section 4.3.  It
    reads the file at [path] and writes the resulting keys into the
    target mapping [processEnv], overwriting existing keys when [overload]
    is set (destructive) and skipping keys already present otherwise
    (non-destructive).  Failures are reported in the [error] field of the
    result, never thrown.  The updated target mapping is returned next to
    the result, since the source passes a mutable object. *)
Definition config (path : string) (processEnv : Env) (quiet overload : bool)
  : M (ConfigResult * Env) :=
  let result := dotenvx_read host path overload processEnv in
  do emit (EvConfig path overload (error result)) then
  ret (result,
       if overload then parsed result ∪ processEnv
       else processEnv ∪ parsed result).

Definition console_error (file : string) (err : DotenvError) : M unit :=
  emit (EvConsoleError file err).

(** Lines 10-17. *)
Definition fileExists (filePath : string) : M bool :=
  try_catch (do access filePath then ret true) (λ _, ret false).

(** Line 24: [options.nodeEnv || process.env.NODE_ENV || "development"]. *)
Definition effectiveNodeEnv (options : LoadDotEnvOptions) : string :=
  str_or (nodeEnv options) (str_or (NODE_ENV host) "development").

(** Lines 26-31: the array [files]. *)
Definition candidateFiles (basePath nodeEnv : string) : list string :=
  [ join host basePath (".env." +:+ nodeEnv +:+ ".local");
    join host basePath (".env." +:+ nodeEnv);
    join host basePath ".env.local";
    join host basePath ".env" ].

(** Lines 33-46: the first loop, threading the object [processEnv]. *)
Fixpoint forwardLoop (files : list string) (processEnv : Env) : M Env :=
  match files with
  | [] => ret processEnv
  | file :: rest =>
      let* found := fileExists file in
      if found : bool then
        let* r := config file processEnv true false in
        do match error r.1 with
           | Some err =>
               if bool_decide (code err ≠ Some "MISSING_ENV_FILE")
               then console_error file err
               else ret ()
           | None => ret ()
           end then
        forwardLoop rest r.2
      else forwardLoop rest processEnv
  end.

(** Lines 50-59: the loop of the overload branch, threading the object
    [overloadedEnv]; the result of [config] is not inspected. *)
Fixpoint reverseLoop (files : list string) (overloadedEnv : Env) : M Env :=
  match files with
  | [] => ret overloadedEnv
  | file :: rest =>
      let* found := fileExists file in
      if found : bool then
        let* r := config file overloadedEnv true true in
        reverseLoop rest r.2
      else reverseLoop rest overloadedEnv
  end.

(** Lines 60-62: [processEnv[key] = value] for every entry of
    [overloadedEnv]. *)
Definition copyEntries (overloadedEnv processEnv : Env) : Env :=
  map_fold (λ key value acc, <[key := value]> acc) processEnv overloadedEnv.

(** Lines 19-66.  An omitted [options] argument is [None]. *)
Definition loadDotEnvFiles (basePath : string)
    (options : option LoadDotEnvOptions) : M Env :=
  let options := default emptyOptions options in
  let processEnv : Env := ∅ in
  let nodeEnv := effectiveNodeEnv options in
  let files := candidateFiles basePath nodeEnv in
  let* processEnv := forwardLoop files processEnv in
  if truthy (overload options) then
    let* overloadedEnv := reverseLoop (reverse files) ∅ in
    ret (copyEntries overloadedEnv processEnv)
  else ret processEnv.

(** ** The ["shell.env"] hook *)

(** The hook receives a reference to the [output] object, whose field
    [env] refers to a dictionary object.  Both live in the caller's heap. *)
Definition loc := nat.

Record Heap := {
  (** the [env] field of each output object *)
  env_of : loc → loc;
  (** the contents of each dictionary object *)
  dict : loc → Env
}.

Record Input := { cwd : option string }.

(** [output.env], read through the reference. *)
Definition output_env (σ : Heap) (output : loc) : Env :=
  dict σ (env_of σ output).

(** [output.env[key] = value]: a write into the dictionary the field
    refers to; the field itself is not assigned. *)
Definition set_output_env (σ : Heap) (output : loc) (key value : string) : Heap :=
  {| env_of := env_of σ;
     dict := λ l, if decide (l = env_of σ output)
                  then <[key := value]> (dict σ l)
                  else dict σ l |}.

(** Lines 76-80. *)
Definition mergeLoaded (loaded : Env) (output : loc) (σ : Heap) : Heap :=
  map_fold (λ key value σ,
              if key_in key (output_env σ output) then σ
              else set_output_env σ output key value)
           σ loaded.

(** Lines 82-84. *)
Definition defaultNodeEnv (nodeEnv : string) (output : loc) (σ : Heap) : Heap :=
  if key_in "NODE_ENV" (output_env σ output) then σ
  else set_output_env σ output "NODE_ENV" nodeEnv.

(** Lines 70-85: the hook closes over [directory]. *)
Definition shell_env (directory : string) (input : Input) (output : loc)
    (σ : Heap) : M Heap :=
  let basePath := nullish_or (cwd input) directory in
  let nodeEnv := str_or (NODE_ENV host) "development" in
  let* loaded := loadDotEnvFiles basePath
                   (Some {| nodeEnv := Some nodeEnv; overload := None |}) in
  let σ := mergeLoaded loaded output σ in
  let σ := defaultNodeEnv nodeEnv output σ in
  ret σ.

(** Lines 68-87: [LoadDotEnv({ directory })] returns the hook table. *)
Record Hooks := { hook_shell_env : Input → loc → Heap → M Heap }.

Definition LoadDotEnv (directory : string) : Hooks :=
  {| hook_shell_env := shell_env directory |}.

End LoadDotEnv.

(** ** A concrete host, for running the code on examples *)

Definition posix_join (a b : string) : string := a +:+ "/" +:+ b.

Definition MISSING_ENV_FILE : DotenvError :=
  {| code := Some "MISSING_ENV_FILE"; message := "missing env file" |}.

(** A directory fixture: the files present, each with what the parser
    reads from it in non-destructive and in destructive mode. *)
Definition Fixture := gmap string (ConfigResult * ConfigResult).

Definition fixtureHost (fs : Fixture) (node_env : option string) : Host :=
  {| join := posix_join;
     fs_access := λ p, match fs !! p with
                       | Some _ => None
                       | None => Some "ENOENT"
                       end;
     dotenvx_read := λ p ov _,
       match fs !! p with
       | Some r => if ov then r.2 else r.1
       | None => {| parsed := ∅; error := Some MISSING_ENV_FILE |}
       end;
     NODE_ENV := node_env |}.

(** A well-formed file reads the same in both modes. *)
Definition plainFile (entries : list (string * string)) : ConfigResult * ConfigResult :=
  let r := {| parsed := list_to_map entries; error := None |} in (r, r).

Definition DECRYPTION_FAILED : DotenvError :=
  {| code := Some "DECRYPTION_FAILED"; message := "could not decrypt SECRET" |}.

(** All four candidates of the [development] environment, with
    overlapping keys. *)
Definition fxFour : Fixture :=
  list_to_map
    [ ("/app/.env.development.local", plainFile [("K", "dev-local")]);
      ("/app/.env.development", plainFile [("K", "dev"); ("LOG_LEVEL", "debug")]);
      ("/app/.env.local", plainFile [("K", "local"); ("LOG_LEVEL", "local")]);
      ("/app/.env", plainFile [("K", "base"); ("LOG_LEVEL", "info");
                               ("APP_NAME", "TestApp")]) ].

(** [.env.local] sets [SECRET]; [.env] holds an encrypted [SECRET] that
    is skipped while [SECRET] is already set, and whose decryption fails
    when it is read first, in destructive mode. *)
Definition fxSecret : Fixture :=
  list_to_map
    [ ("/app/.env.local", plainFile [("SECRET", "plain")]);
      ("/app/.env",
       ({| parsed := ∅; error := None |},
        {| parsed := {[ "SECRET" := "encrypted:BDqDBibm4wsYqMpCjTQ6BsDHmMadg9K3dAt" ]};
           error := Some DECRYPTION_FAILED |})) ].

(** A malformed [.env.development] between a sound
    [.env.development.local] and a sound [.env]. *)
Definition SYNTAX_ERROR : DotenvError :=
  {| code := None; message := "unexpected token" |}.

Definition fxMalformed : Fixture :=
  list_to_map
    [ ("/app/.env.development.local", plainFile [("TOKEN", "abc")]);
      ("/app/.env.development",
       let r := {| parsed := ∅; error := Some SYNTAX_ERROR |} in (r, r));
      ("/app/.env", plainFile [("APP_NAME", "TestApp")]) ].

(** The directory of the integration example: one [.env] file. *)
Definition fxHook : Fixture :=
  list_to_map [ ("/app/.env", plainFile [("FOO", "loaded"); ("BAR", "baz")]) ].

(** A caller heap: the output object [0] whose [env] field refers to the
    dictionary [1], pre-populated with [FOO]. *)
Definition heapFoo : Heap :=
  {| env_of := λ _, 1;
     dict := λ l, if decide (l = 1) then {[ "FOO" := "existing" ]} else ∅ |}.

(** The same with [NODE_ENV] set by the caller. *)
Definition heapNodeEnv : Heap :=
  {| env_of := λ _, 1;
     dict := λ l, if decide (l = 1) then {[ "NODE_ENV" := "staging" ]} else ∅ |}.

(** A directory whose [.env] also defines a variable named like a
    property of [Object.prototype]. *)
Definition fxInherited : Fixture :=
  list_to_map
    [ ("/app/.env", plainFile [("FOO", "loaded"); ("BAR", "baz");
                               ("constructor", "loaded")]) ].

(** A directory whose [.env] sets [NODE_ENV] for the shell. *)
Definition fxStaging : Fixture :=
  list_to_map [ ("/app/.env", plainFile [("NODE_ENV", "staging"); ("PORT", "8080")]) ].

(** A caller heap with two dictionaries: [1] behind the output object,
    [2] belonging to somebody else. *)
Definition heapTwo : Heap :=
  {| env_of := λ _, 1;
     dict := λ l, if decide (l = 1) then {[ "PATH" := "/usr/bin" ]}
                  else if decide (l = 2) then {[ "OTHER" := "kept" ]} else ∅ |}.

(** A host whose parser reads each file the same way in both modes and
    whatever the target mapping holds: no expansion, no errors. *)
Definition staticHost (fs : gmap string Env) (node_env : option string) : Host :=
  {| join := posix_join;
     fs_access := λ p, match fs !! p with
                       | Some _ => None
                       | None => Some "ENOENT"
                       end;
     dotenvx_read := λ p _ _, {| parsed := default ∅ (fs !! p); error := None |};
     NODE_ENV := node_env |}.

Definition fsStatic : gmap string Env :=
  list_to_map
    [ ("/app/.env.development", list_to_map [("K", "dev"); ("DEBUG", "true")]);
      ("/app/.env.local", list_to_map [("K", "local"); ("USER", "me")]);
      ("/app/.env", list_to_map [("K", "base"); ("APP_NAME", "TestApp")]) ].

(** ** Functional reading of the loops *)

Section Reading.

Variable host : Host.

(** The boolean [fileExists] resolves to. *)
Definition fileFound (filePath : string) : bool :=
  match fs_access host filePath with None => true | Some _ => false end.

(** What the forward loop logs after one [config] call. *)
Definition forwardLog (file : string) (err : option DotenvError) : list Event :=
  match err with
  | Some e =>
      if bool_decide (code e ≠ Some "MISSING_ENV_FILE")
      then [EvConsoleError file e] else []
  | None => []
  end.

(** The mapping and the events of the forward loop. *)
Fixpoint forwardEnv (files : list string) (processEnv : Env) : Env :=
  match files with
  | [] => processEnv
  | file :: rest =>
      if fileFound file
      then forwardEnv rest
             (processEnv ∪ parsed (dotenvx_read host file false processEnv))
      else forwardEnv rest processEnv
  end.

Fixpoint forwardTrace (files : list string) (processEnv : Env) : list Event :=
  match files with
  | [] => []
  | file :: rest =>
      if fileFound file
      then
        let r := dotenvx_read host file false processEnv in
        EvAccess file :: EvConfig file false (error r)
          :: forwardLog file (error r)
          ++ forwardTrace rest (processEnv ∪ parsed r)
      else EvAccess file :: forwardTrace rest processEnv
  end.

(** The mapping and the events of the reverse loop. *)
Fixpoint reverseEnv (files : list string) (overloadedEnv : Env) : Env :=
  match files with
  | [] => overloadedEnv
  | file :: rest =>
      if fileFound file
      then reverseEnv rest
             (parsed (dotenvx_read host file true overloadedEnv) ∪ overloadedEnv)
      else reverseEnv rest overloadedEnv
  end.

Fixpoint reverseTrace (files : list string) (overloadedEnv : Env) : list Event :=
  match files with
  | [] => []
  | file :: rest =>
      if fileFound file
      then
        let r := dotenvx_read host file true overloadedEnv in
        EvAccess file :: EvConfig file true (error r)
          :: reverseTrace rest (parsed r ∪ overloadedEnv)
      else EvAccess file :: reverseTrace rest overloadedEnv
  end.

(** For a parser that reads [content file] from every file: the files
    found, merged with the earlier ones taking precedence. *)
Fixpoint staticMerge (content : string → Env) (files : list string) : Env :=
  match files with
  | [] => ∅
  | file :: rest =>
      (if fileFound file then content file else ∅) ∪ staticMerge content rest
  end.

End Reading.

(** Projections of a trace. *)
Definition accessed (t : list Event) : list string :=
  omap (λ ev, match ev with EvAccess p => Some p | _ => None end) t.

Definition configured (t : list Event) : list (string * bool) :=
  omap (λ ev, match ev with EvConfig p ov _ => Some (p, ov) | _ => None end) t.

Definition logged (t : list Event) : list (string * DotenvError) :=
  omap (λ ev, match ev with EvConsoleError f e => Some (f, e) | _ => None end) t.

(** ** Basic facts *)

Section Facts.

Variable host : Host.

Lemma fileExists_run filePath :
  fileExists host filePath = (Returned (fileFound host filePath), [EvAccess filePath]).
Proof.
  unfold fileExists, access, fileFound.
  destruct (fs_access host filePath); reflexivity.
Qed.

Lemma fileExists_true filePath :
  outcome (fileExists host filePath) = Returned true ↔ fileFound host filePath = true.
Proof.
  rewrite fileExists_run. cbn [outcome fst]. split; [by intros [= ->]|by intros ->].
Qed.

Lemma forwardLoop_run files processEnv :
  forwardLoop host files processEnv
  = (Returned (forwardEnv host files processEnv),
     forwardTrace host files processEnv).
Proof.
  revert processEnv. induction files as [|file rest IH]; intros processEnv.
  - reflexivity.
  - cbn [forwardLoop forwardEnv forwardTrace].
    rewrite fileExists_run. cbn [bind].
    destruct (fileFound host file); cbn.
    + rewrite IH. unfold forwardLog.
      destruct (error _) as [e|]; [destruct (bool_decide _)|]; reflexivity.
    + rewrite IH. reflexivity.
Qed.

Lemma reverseLoop_run files overloadedEnv :
  reverseLoop host files overloadedEnv
  = (Returned (reverseEnv host files overloadedEnv),
     reverseTrace host files overloadedEnv).
Proof.
  revert overloadedEnv. induction files as [|file rest IH]; intros overloadedEnv.
  - reflexivity.
  - cbn [reverseLoop reverseEnv reverseTrace].
    rewrite fileExists_run. cbn [bind].
    destruct (fileFound host file); cbn; rewrite IH; reflexivity.
Qed.

Lemma copyEntries_union (overloadedEnv processEnv : Env) :
  copyEntries overloadedEnv processEnv = overloadedEnv ∪ processEnv.
Proof.
  unfold copyEntries.
  apply (map_fold_weak_ind (λ r m, r = m ∪ processEnv)).
  - by rewrite (left_id_L ∅ (∪)).
  - intros i x m r _ ->. by rewrite insert_union_l.
Qed.

Lemma loadDotEnvFiles_run basePath options :
  let opts := default emptyOptions options in
  let files := candidateFiles host basePath (effectiveNodeEnv host opts) in
  loadDotEnvFiles host basePath options
  = if truthy (overload opts)
    then (Returned (reverseEnv host (reverse files) ∅ ∪ forwardEnv host files ∅),
          forwardTrace host files ∅ ++ reverseTrace host (reverse files) ∅)
    else (Returned (forwardEnv host files ∅), forwardTrace host files ∅).
Proof.
  intros opts files. unfold loadDotEnvFiles. fold opts. fold files.
  rewrite forwardLoop_run. cbn [bind].
  destruct (truthy (overload opts)).
  - rewrite reverseLoop_run. cbn [bind ret].
    by rewrite copyEntries_union, app_nil_r.
  - cbn [bind ret]. by rewrite app_nil_r.
Qed.

(** *** The forward (non-destructive) pass *)

Lemma forwardEnv_app pre post processEnv :
  forwardEnv host (pre ++ post) processEnv
  = forwardEnv host post (forwardEnv host pre processEnv).
Proof.
  revert processEnv. induction pre as [|file pre IH]; intros processEnv; [done|].
  cbn. destruct (fileFound host file); apply IH.
Qed.

(** A key that is already set is never replaced. *)
Lemma forwardEnv_keeps files processEnv key value :
  processEnv !! key = Some value →
  forwardEnv host files processEnv !! key = Some value.
Proof.
  revert processEnv. induction files as [|file rest IH]; intros processEnv Hk; [done|].
  cbn. destruct (fileFound host file); apply IH; [|done].
  apply lookup_union_Some_raw. by left.
Qed.


(** *** The reverse (destructive) pass *)

Lemma reverseEnv_app pre post overloadedEnv :
  reverseEnv host (pre ++ post) overloadedEnv
  = reverseEnv host post (reverseEnv host pre overloadedEnv).
Proof.
  revert overloadedEnv. induction pre as [|file pre IH]; intros overloadedEnv; [done|].
  cbn. destruct (fileFound host file); apply IH.
Qed.

Lemma reverseTrace_configured files overloadedEnv :
  configured (reverseTrace host files overloadedEnv)
  = (λ file, (file, true)) <$> filter (λ file, fileFound host file = true) files.
Proof.
  revert overloadedEnv. induction files as [|file rest IH]; intros overloadedEnv; [done|].
  cbn [reverseTrace]. rewrite filter_cons.
  destruct (fileFound host file) eqn:Hfound.
  - rewrite decide_True by done. cbn. by rewrite IH.
  - rewrite decide_False by done. cbn. by rewrite IH.
Qed.

Lemma forwardLog_configured file err : configured (forwardLog file err) = [].
Proof. destruct err as [e|]; cbn; [case_bool_decide|]; done. Qed.

Lemma configured_app t1 t2 : configured (t1 ++ t2) = configured t1 ++ configured t2.
Proof. apply omap_app. Qed.

Lemma forwardTrace_configured files processEnv :
  configured (forwardTrace host files processEnv)
  = (λ file, (file, false)) <$> filter (λ file, fileFound host file = true) files.
Proof.
  revert processEnv. induction files as [|file rest IH]; intros processEnv; [done|].
  cbn [forwardTrace]. rewrite filter_cons.
  destruct (fileFound host file) eqn:Hfound.
  - rewrite decide_True by done. cbn.
    by rewrite configured_app, forwardLog_configured, IH.
  - rewrite decide_False by done. cbn. by rewrite IH.
Qed.

Lemma accessed_app t1 t2 : accessed (t1 ++ t2) = accessed t1 ++ accessed t2.
Proof. apply omap_app. Qed.

Lemma forwardLog_accessed file err : accessed (forwardLog file err) = [].
Proof. destruct err as [e|]; cbn; [case_bool_decide|]; done. Qed.

(** Every candidate is probed, in order, whatever the earlier ones held. *)
Lemma forwardTrace_accessed files processEnv :
  accessed (forwardTrace host files processEnv) = files.
Proof.
  revert processEnv. induction files as [|file rest IH]; intros processEnv; [done|].
  cbn [forwardTrace]. destruct (fileFound host file); cbn.
  - by rewrite accessed_app, forwardLog_accessed, IH.
  - by rewrite IH.
Qed.

Lemma reverseTrace_accessed files overloadedEnv :
  accessed (reverseTrace host files overloadedEnv) = files.
Proof.
  revert overloadedEnv. induction files as [|file rest IH]; intros overloadedEnv; [done|].
  cbn [reverseTrace]. destruct (fileFound host file); cbn; by rewrite IH.
Qed.

(** *** Defaulting with [||] *)

Lemma str_or_Some s b : s ≠ EmptyString → str_or (Some s) b = s.
Proof. by destruct s. Qed.

Lemma str_or_falsy a b : a = None ∨ a = Some EmptyString → str_or a b = b.
Proof. by intros [-> | ->]. Qed.

Lemma str_or_nonempty a b : b ≠ EmptyString → str_or a b ≠ EmptyString.
Proof. destruct a as [[|c s]|]; done. Qed.


(** The name the hook passes down is the one the resolver then uses. *)
Lemma effectiveNodeEnv_hook ov :
  effectiveNodeEnv host
    {| nodeEnv := Some (str_or (NODE_ENV host) "development"); overload := ov |}
  = str_or (NODE_ENV host) "development".
Proof. unfold effectiveNodeEnv. cbn. by apply str_or_Some, str_or_nonempty. Qed.

Lemma length_append (s t : string) :
  String.length (s +:+ t) = String.length s + String.length t.
Proof. induction s as [|c s IH]; simpl; [done|]. by f_equal. Qed.


(** *** The hook's writes *)

Lemma key_in_true key (obj : Env) :
  key_in key obj = true ↔ is_Some (obj !! key) ∨ key ∈ Object_prototype.
Proof. unfold key_in. apply bool_decide_eq_true. Qed.

Lemma key_in_false key (obj : Env) :
  key_in key obj = false ↔ obj !! key = None ∧ key ∉ Object_prototype.
Proof.
  unfold key_in. rewrite bool_decide_eq_false, eq_None_not_Some. tauto.
Qed.

Lemma lookup_notInherited (m : Env) key :
  notInherited m !! key
  = if decide (key ∈ Object_prototype) then None else m !! key.
Proof.
  unfold notInherited. case_decide as Hin.
  - apply map_lookup_filter_None. right. intros value _ Hnot. by apply Hnot.
  - destruct (m !! key) as [value|] eqn:Hk.
    + by apply map_lookup_filter_Some.
    + apply map_lookup_filter_None. by left.
Qed.

Lemma NODE_ENV_not_inherited : "NODE_ENV" ∉ Object_prototype.
Proof. apply (bool_decide_unpack _). vm_compute. exact I. Qed.

(** The merge loop leaves every [env] field and every other dictionary
    alone, and extends the dictionary behind [output.env] with the loaded
    entries whose key it neither holds nor inherits. *)
Lemma mergeLoaded_spec (loaded : Env) output σ :
  (∀ o, env_of (mergeLoaded loaded output σ) o = env_of σ o)
  ∧ (∀ l, dict (mergeLoaded loaded output σ) l
          = if decide (l = env_of σ output)
            then dict σ l ∪ notInherited loaded else dict σ l).
Proof.
  unfold mergeLoaded.
  apply (map_fold_weak_ind
           (λ r m, (∀ o, env_of r o = env_of σ o)
                   ∧ (∀ l, dict r l = if decide (l = env_of σ output)
                                      then dict σ l ∪ notInherited m
                                      else dict σ l))).
  - split; [done|]. intros l. case_decide; [|done].
    apply map_eq. intros k. rewrite lookup_union, lookup_notInherited.
    rewrite lookup_empty. case_decide; by destruct (dict σ l !! k).
  - intros key value m r Hfresh [Hfield Hdict].
    assert (Hout : output_env r output
                   = dict σ (env_of σ output) ∪ notInherited m).
    { unfold output_env. rewrite Hfield, Hdict. by rewrite decide_True. }
    destruct (key_in key (output_env r output)) eqn:Hin.
    + split; [done|]. intros l. rewrite Hdict. case_decide; [|done].
      subst l. apply key_in_true in Hin. rewrite Hout in Hin.
      apply map_eq. intros k. rewrite !lookup_union, !lookup_notInherited.
      case_decide as Hk; [done|].
      destruct (decide (k = key)) as [->|Hne]; [|by rewrite lookup_insert_ne].
      destruct Hin as [[v Hv]|Hin]; [|done].
      apply lookup_union_Some_raw in Hv as [Hv|[_ Hv]].
      * by rewrite Hv, lookup_insert_eq, Hfresh.
      * rewrite lookup_notInherited, decide_False, Hfresh in Hv; done.
    + split; [done|]. intros l. cbn. rewrite Hfield, Hdict.
      case_decide; [|done]. subst l.
      apply key_in_false in Hin as [Hin Hproto]. rewrite Hout in Hin.
      apply lookup_union_None in Hin as [Hd _].
      rewrite insert_union_r by done. f_equal.
      apply map_eq. intros k. rewrite !lookup_notInherited.
      destruct (decide (k = key)) as [->|Hne].
      * by rewrite decide_False, !lookup_insert_eq.
      * rewrite !lookup_insert_ne by done. by rewrite lookup_notInherited.
Qed.

Lemma defaultNodeEnv_spec nodeEnv output σ :
  (∀ o, env_of (defaultNodeEnv nodeEnv output σ) o = env_of σ o)
  ∧ (∀ l, dict (defaultNodeEnv nodeEnv output σ) l
          = if decide (l = env_of σ output)
            then dict σ l ∪ {["NODE_ENV" := nodeEnv]} else dict σ l).
Proof.
  unfold defaultNodeEnv.
  destruct (key_in "NODE_ENV" (output_env σ output)) eqn:Hin.
  - split; [done|]. intros l. case_decide; [|done]. subst l.
    apply key_in_true in Hin as [[v Hv]|Hin];
      [|by apply NODE_ENV_not_inherited in Hin].
    unfold output_env in Hv.
    apply map_eq. intros k. rewrite lookup_union.
    destruct (decide (k = "NODE_ENV")) as [->|Hne].
    + by rewrite Hv.
    + rewrite lookup_singleton_ne by done. by destruct (dict _ _ !! k).
  - split; [done|]. intros l. cbn. case_decide; [|done]. subst l.
    apply key_in_false in Hin as [Hin _]. unfold output_env in Hin.
    rewrite insert_union_singleton_r by done. done.
Qed.

Lemma shell_env_run directory input output σ :
  let basePath := nullish_or (cwd input) directory in
  let nodeEnv := str_or (NODE_ENV host) "development" in
  let files := candidateFiles host basePath nodeEnv in
  shell_env host directory input output σ
  = (Returned (defaultNodeEnv nodeEnv output
                 (mergeLoaded (forwardEnv host files ∅) output σ)),
     forwardTrace host files ∅).
Proof.
  intros basePath nodeEnv files. unfold shell_env. fold basePath. fold nodeEnv.
  rewrite loadDotEnvFiles_run. cbn [default from_option id overload truthy].
  rewrite effectiveNodeEnv_hook. fold nodeEnv. fold files.
  cbn [bind ret]. by rewrite app_nil_r.
Qed.

(** The dictionary behind [output.env] once the hook has run. *)
Lemma shell_env_output directory input output σ :
  let basePath := nullish_or (cwd input) directory in
  let nodeEnv := str_or (NODE_ENV host) "development" in
  let loaded := forwardEnv host (candidateFiles host basePath nodeEnv) ∅ in
  let σ' := defaultNodeEnv nodeEnv output (mergeLoaded loaded output σ) in
  (∀ o, env_of σ' o = env_of σ o)
  ∧ (∀ l, l ≠ env_of σ output → dict σ' l = dict σ l)
  ∧ output_env σ' output
    = (output_env σ output ∪ notInherited loaded) ∪ {["NODE_ENV" := nodeEnv]}.
Proof.
  intros basePath nodeEnv loaded σ'. subst σ'.
  destruct (defaultNodeEnv_spec nodeEnv output (mergeLoaded loaded output σ))
    as [Hf2 Hd2].
  destruct (mergeLoaded_spec loaded output σ) as [Hf1 Hd1].
  split; [intros o; by rewrite Hf2, Hf1|]. split.
  - intros l Hl. rewrite Hd2, Hf1, decide_False by done.
    by rewrite Hd1, decide_False.
  - unfold output_env. rewrite Hf2, Hf1, Hd2, Hf1, decide_True by done.
    by rewrite Hd1, decide_True.
Qed.

(** *** When nothing is found *)

Lemma forwardLoop_nothing_found files processEnv :
  (∀ file, file ∈ files → fileFound host file = false) →
  forwardEnv host files processEnv = processEnv
  ∧ forwardTrace host files processEnv = EvAccess <$> files.
Proof.
  induction files as [|file rest IH]; intros Hnone; [done|].
  cbn. rewrite (Hnone file) by apply list_elem_of_here.
  destruct IH as [IHe IHt].
  { intros g Hg. by apply Hnone, list_elem_of_further. }
  split; [done|]. by rewrite IHt.
Qed.

Lemma reverseLoop_nothing_found files overloadedEnv :
  (∀ file, file ∈ files → fileFound host file = false) →
  reverseEnv host files overloadedEnv = overloadedEnv
  ∧ reverseTrace host files overloadedEnv = EvAccess <$> files.
Proof.
  induction files as [|file rest IH]; intros Hnone; [done|].
  cbn. rewrite (Hnone file) by apply list_elem_of_here.
  destruct IH as [IHe IHt].
  { intros g Hg. by apply Hnone, list_elem_of_further. }
  split; [done|]. by rewrite IHt.
Qed.

Lemma fileFound_false filePath :
  fileFound host filePath = false ↔ is_Some (fs_access host filePath).
Proof.
  unfold fileFound. destruct (fs_access host filePath); split; try done.
Qed.

(** *** Logging *)

Lemma forwardLog_logs file err :
  code err ≠ Some "MISSING_ENV_FILE" →
  forwardLog file (Some err) = [EvConsoleError file err].
Proof. intros Hc. cbn. by rewrite bool_decide_eq_true_2. Qed.

Lemma forwardLog_only_logs file err ev :
  ev ∈ forwardLog file err → ∃ e, ev = EvConsoleError file e ∧ err = Some e.
Proof.
  destruct err as [e|]; cbn; [case_bool_decide|]; intros Hin.
  - apply list_elem_of_singleton in Hin. by exists e.
  - by apply elem_of_nil in Hin.
  - by apply elem_of_nil in Hin.
Qed.

(** In the forward pass a reported error, unless it is a missing file,
    is followed by its log entry. *)
Lemma forwardTrace_logs files processEnv path mode err :
  EvConfig path mode (Some err) ∈ forwardTrace host files processEnv →
  code err ≠ Some "MISSING_ENV_FILE" →
  mode = false ∧ EvConsoleError path err ∈ forwardTrace host files processEnv.
Proof.
  revert processEnv. induction files as [|file rest IH]; intros processEnv Hin Hcode.
  - by apply elem_of_nil in Hin.
  - cbn [forwardTrace] in *. destruct (fileFound host file).
    + apply elem_of_cons in Hin as [?|Hin]; [done|].
      apply elem_of_cons in Hin as [[= -> -> Herr]|Hin].
      * split; [done|]. rewrite <- Herr, forwardLog_logs by done.
        do 2 apply list_elem_of_further. apply list_elem_of_here.
      * apply elem_of_app in Hin as [Hin|Hin].
        { by apply forwardLog_only_logs in Hin as [e [? _]]. }
        destruct (IH _ Hin Hcode) as [-> Hlog]. split; [done|].
        do 2 apply list_elem_of_further. apply elem_of_app. by right.
    + apply elem_of_cons in Hin as [?|Hin]; [done|].
      destruct (IH _ Hin Hcode) as [-> Hlog]. split; [done|].
      by apply list_elem_of_further.
Qed.

(** The reverse pass never logs, and all its reads are destructive. *)
Lemma reverseTrace_logged files overloadedEnv :
  logged (reverseTrace host files overloadedEnv) = [].
Proof.
  revert overloadedEnv. induction files as [|file rest IH]; intros overloadedEnv; [done|].
  cbn [reverseTrace]. destruct (fileFound host file); cbn; by rewrite IH.
Qed.

Lemma reverseTrace_destructive files overloadedEnv path mode err :
  EvConfig path mode err ∈ reverseTrace host files overloadedEnv → mode = true.
Proof.
  revert overloadedEnv. induction files as [|file rest IH]; intros overloadedEnv Hin.
  - by apply elem_of_nil in Hin.
  - cbn [reverseTrace] in Hin. destruct (fileFound host file).
    + apply elem_of_cons in Hin as [?|Hin]; [done|].
      apply elem_of_cons in Hin as [[= _ -> _]|Hin]; [done|]. by eapply IH.
    + apply elem_of_cons in Hin as [?|Hin]; [done|]. by eapply IH.
Qed.

End Facts.

(** ** Precedence among the files *)


(** In the reverse pass an entry stays as it is while the files read
    afterwards do not define its key. *)
Lemma reverseEnv_keeps (host : Host) files overloadedEnv key value :
  overloadedEnv !! key = Some value →
  (∀ g e, g ∈ files → fileFound host g = true →
          parsed (dotenvx_read host g true e) !! key = None) →
  reverseEnv host files overloadedEnv !! key = Some value.
Proof.
  revert overloadedEnv. induction files as [|file rest IH]; intros overloadedEnv Hk Hno;
    [done|].
  cbn. destruct (fileFound host file) eqn:Hfound.
  - apply IH.
    + apply lookup_union_Some_raw. right. split; [|done].
      apply Hno; [apply list_elem_of_here|done].
    + intros g e Hg. apply Hno. by apply list_elem_of_further.
  - apply IH; [done|]. intros g e Hg. apply Hno. by apply list_elem_of_further.
Qed.

Lemma reverseEnv_undefined (host : Host) files overloadedEnv key :
  overloadedEnv !! key = None →
  (∀ g e, g ∈ files → fileFound host g = true →
          parsed (dotenvx_read host g true e) !! key = None) →
  reverseEnv host files overloadedEnv !! key = None.
Proof.
  revert overloadedEnv. induction files as [|file rest IH]; intros overloadedEnv Hk Hno;
    [done|].
  cbn. destruct (fileFound host file) eqn:Hfound.
  - apply IH.
    + apply lookup_union_None. split; [|done].
      apply Hno; [apply list_elem_of_here|done].
    + intros g e Hg. apply Hno. by apply list_elem_of_further.
  - apply IH; [done|]. intros g e Hg. apply Hno. by apply list_elem_of_further.
Qed.

(** C2. With [overload] true the call runs the forward loop and then
    the reverse loop, which starts from the empty mapping and reads the
    same four candidates in reverse order, each found file in destructive
    mode, every read overwriting what the earlier reads had set and
    keeping the rest.  So the resulting [overloadedEnv] gives every key
    the value read from the last file, in that order, that defines it:
    for any candidate [file] found on disk that defines [key], such that
    no candidate of higher precedence (read after it) defines [key], the
    value of [key] is the one read from [file].  Every key of
    [overloadedEnv] ends up in the returned mapping with the value it has
    there, all other keys keep the value of the forward pass, and a key
    that the highest-precedence file [.env.<env>.local] (found on disk)
    defines gets the value read from that file, whatever the three files
    below it hold. *)
Theorem loadDotEnvFiles_overload_two_passes
    (host : Host) (basePath : string) (options : LoadDotEnvOptions) :
  overload options = Some true →
  let files := candidateFiles host basePath (effectiveNodeEnv host options) in
  let top := join host basePath (".env." +:+ effectiveNodeEnv host options +:+ ".local") in
  let forward := forwardLoop host files ∅ in
  let backward := reverseLoop host (reverse files) ∅ in
  let run := loadDotEnvFiles host basePath (Some options) in
  ∃ primary overloadedEnv result,
    outcome forward = Returned primary
    ∧ outcome backward = Returned overloadedEnv
    ∧ configured (trace backward)
      = (λ file, (file, true))
          <$> filter (λ file, fileFound host file = true) (reverse files)
    ∧ outcome run = Returned result
    ∧ trace run = trace forward ++ trace backward
    ∧ (∀ key value, overloadedEnv !! key = Some value → result !! key = Some value)
    ∧ (∀ key, overloadedEnv !! key = None → result !! key = primary !! key)
    ∧ (∀ key value lower,
         outcome (fileExists host top) = Returned true →
         outcome (reverseLoop host (reverse (tail files)) ∅) = Returned lower →
         parsed (dotenvx_read host top true lower) !! key = Some value →
         result !! key = Some value)
    ∧ (∀ below file above key value lower,
         reverse files = below ++ file :: above →
         outcome (fileExists host file) = Returned true →
         outcome (reverseLoop host below ∅) = Returned lower →
         parsed (dotenvx_read host file true lower) !! key = Some value →
         (∀ g e, g ∈ above → outcome (fileExists host g) = Returned true →
                 parsed (dotenvx_read host g true e) !! key = None) →
         overloadedEnv !! key = Some value ∧ result !! key = Some value)
    ∧ (∀ key,
         (∀ g e, g ∈ files → outcome (fileExists host g) = Returned true →
                 parsed (dotenvx_read host g true e) !! key = None) →
         overloadedEnv !! key = None).
Proof.
  intros Hov files top forward backward run. subst forward backward run.
  exists (forwardEnv host files ∅), (reverseEnv host (reverse files) ∅),
         (reverseEnv host (reverse files) ∅ ∪ forwardEnv host files ∅).
  rewrite loadDotEnvFiles_run. cbn [default from_option id]. rewrite Hov.
  fold files. rewrite forwardLoop_run, reverseLoop_run.
  cbn [outcome trace fst snd truthy default from_option id].
  split; [done|]. split; [done|]. split; [apply reverseTrace_configured|].
  split; [done|]. split; [done|].
  split; [intros key value Hk; apply lookup_union_Some_raw; by left|].
  split; [intros key Hk; by apply lookup_union_r|].
  split; [|split].
  - intros key value lower Hfound Hlower Hdef.
    apply fileExists_true in Hfound.
    rewrite reverseLoop_run in Hlower. injection Hlower as <-.
    apply lookup_union_Some_raw. left.
    subst files. unfold candidateFiles. fold top. rewrite reverse_cons.
    rewrite reverseEnv_app. cbn [reverseEnv tail]. rewrite Hfound.
    apply lookup_union_Some_raw. by left.
  - intros below file above key value lower Hsplit Hfound Hlower Hdef Habove.
    apply fileExists_true in Hfound.
    rewrite reverseLoop_run in Hlower. injection Hlower as <-.
    assert (Hk : reverseEnv host (reverse files) ∅ !! key = Some value).
    { rewrite Hsplit, reverseEnv_app. cbn [reverseEnv]. rewrite Hfound.
      apply reverseEnv_keeps.
      - apply lookup_union_Some_raw. by left.
      - intros g e Hg Hgfound. apply Habove; [done|]. by apply fileExists_true. }
    split; [done|]. apply lookup_union_Some_raw. by left.
  - intros key Hno. apply reverseEnv_undefined; [done|].
    intros g e Hg Hgfound. apply Hno; [by apply elem_of_reverse|].
    by apply fileExists_true.
Qed.

(** The four probes of the forward pass, whatever the options. *)
Lemma first_four_probes
    (host : Host) (basePath : string) (options : option LoadDotEnvOptions) :
  take 4 (accessed (trace (loadDotEnvFiles host basePath options)))
  = candidateFiles host basePath
      (effectiveNodeEnv host (default emptyOptions options)).
Proof.
  rewrite loadDotEnvFiles_run.
  destruct (truthy _); cbn [trace snd].
  - by rewrite accessed_app, forwardTrace_accessed, reverseTrace_accessed.
  - by rewrite forwardTrace_accessed.
Qed.

(** C3. Whatever the base path and the options, the candidate list is the
    four paths [.env.<env>.local], [.env.<env>], [.env.local], [.env]
    joined to the base path, in this order; the files probed by the call
    are these four in this order (followed, under [overload], by the same
    four in reverse), and no other path is ever handed to the parser. *)
Theorem candidate_files_fixed_order
    (host : Host) (basePath : string) (options : option LoadDotEnvOptions) :
  let opts := default emptyOptions options in
  let env := effectiveNodeEnv host opts in
  let files := [ join host basePath (".env." +:+ env +:+ ".local");
                 join host basePath (".env." +:+ env);
                 join host basePath ".env.local";
                 join host basePath ".env" ] in
  candidateFiles host basePath env = files
  ∧ accessed (trace (loadDotEnvFiles host basePath options))
    = files ++ (if truthy (overload opts) then reverse files else [])
  ∧ take 4 (accessed (trace (loadDotEnvFiles host basePath options))) = files
  ∧ (∀ path mode, (path, mode) ∈ configured (trace (loadDotEnvFiles host basePath options)) →
                  path ∈ files).
Proof.
  intros opts env files.
  assert (Hacc : accessed (trace (loadDotEnvFiles host basePath options))
                 = files ++ (if truthy (overload opts) then reverse files else [])).
  { rewrite loadDotEnvFiles_run. fold opts. fold env. change (candidateFiles host basePath env) with files.
    destruct (truthy (overload opts)); cbn [trace snd].
    - by rewrite accessed_app, forwardTrace_accessed, reverseTrace_accessed.
    - by rewrite forwardTrace_accessed, app_nil_r. }
  split; [reflexivity|]. split; [exact Hacc|]. split.
  - rewrite Hacc. reflexivity.
  - intros path mode. rewrite loadDotEnvFiles_run. fold opts. fold env.
    change (candidateFiles host basePath env) with files.
    destruct (truthy (overload opts)); cbn [trace snd].
    + rewrite configured_app, forwardTrace_configured, reverseTrace_configured.
      rewrite elem_of_app, !list_elem_of_fmap.
      intros [[f [[= -> _] Hf]]|[f [[= -> _] Hf]]].
      * by apply list_elem_of_filter in Hf as [_ Hf].
      * apply list_elem_of_filter in Hf as [_ Hf]. by apply elem_of_reverse in Hf.
    + rewrite forwardTrace_configured, list_elem_of_fmap.
      intros [f [[= -> _] Hf]]. by apply list_elem_of_filter in Hf as [_ Hf].
Qed.

(** ** Host integration *)

(** C4 (amended). The hook returns; it assigns no [env] field and
    touches no dictionary other than the one [output.env] refers to, so
    the caller's object is updated in place.  Every entry present before
    the hook ran is still there with its value.  An entry that is new
    afterwards is a loaded entry or the [NODE_ENV] default; a key absent
    before, other than [NODE_ENV], receives the loaded value unless the
    object inherits that name, in which case [in] finds it and nothing is
    written.  On the example of the specification, with
    [{FOO: "existing"}] before and [{FOO: "loaded", BAR: "baz"}] loaded,
    the hook leaves [FOO: "existing"], [BAR: "baz"] and the [NODE_ENV]
    default. *)
Theorem shell_env_keeps_existing_entries
    (host : Host) (directory : string) (input : Input) (output : loc) (σ : Heap) :
  let basePath := nullish_or (cwd input) directory in
  let nodeEnv := str_or (NODE_ENV host) "development" in
  ∃ loaded σ',
    outcome (loadDotEnvFiles host basePath
               (Some {| nodeEnv := Some nodeEnv; overload := None |}))
    = Returned loaded
    ∧ outcome (hook_shell_env (LoadDotEnv host directory) input output σ)
      = Returned σ'
    ∧ (∀ o, env_of σ' o = env_of σ o)
    ∧ (∀ l, l ≠ env_of σ output → dict σ' l = dict σ l)
    ∧ (∀ key value, output_env σ output !! key = Some value →
                    output_env σ' output !! key = Some value)
    ∧ (∀ key value, output_env σ output !! key = None →
                    output_env σ' output !! key = Some value →
                    loaded !! key = Some value
                    ∨ (key = "NODE_ENV" ∧ value = nodeEnv))
    ∧ (∀ key, output_env σ output !! key = None → key ≠ "NODE_ENV" →
              key ∉ Object_prototype →
              output_env σ' output !! key = loaded !! key)
    ∧ (∀ key, output_env σ output !! key = None → key ∈ Object_prototype →
              output_env σ' output !! key = None)
    ∧ (output_env σ output = {[ "FOO" := "existing" ]} →
       loaded = {[ "FOO" := "loaded"; "BAR" := "baz" ]} →
       output_env σ' output
       = {[ "FOO" := "existing"; "BAR" := "baz"; "NODE_ENV" := nodeEnv ]}).
Proof.
  intros basePath nodeEnv.
  destruct (shell_env_output host directory input output σ) as (Hfield & Hother & Hout).
  fold basePath nodeEnv in Hfield, Hother, Hout.
  eexists _, _. split.
  { rewrite loadDotEnvFiles_run. cbn [default from_option id overload truthy].
    rewrite effectiveNodeEnv_hook. reflexivity. }
  split; [cbn [LoadDotEnv hook_shell_env]; by rewrite shell_env_run|].
  cbn [outcome fst]. fold basePath nodeEnv.
  split; [exact Hfield|]. split; [exact Hother|].
  split; [|split; [|split; [|split]]].
  - intros key value Hk. rewrite Hout.
    apply lookup_union_Some_raw. left. apply lookup_union_Some_raw. by left.
  - intros key value Hk. rewrite Hout. intros Hafter.
    apply lookup_union_Some_raw in Hafter as [Hafter|[_ Hafter]].
    + apply lookup_union_Some_raw in Hafter as [Hafter|[_ Hafter]]; [congruence|].
      rewrite lookup_notInherited in Hafter. case_decide; [done|by left].
    + apply lookup_singleton_Some in Hafter as [<- <-]. by right.
  - intros key Hk Hne Hproto. rewrite Hout.
    rewrite lookup_union_l by by rewrite lookup_singleton_ne.
    rewrite lookup_union_r by done.
    by rewrite lookup_notInherited, decide_False.
  - intros key Hk Hproto. rewrite Hout.
    apply lookup_union_None. split.
    + apply lookup_union_None. split; [done|].
      by rewrite lookup_notInherited, decide_True.
    + apply lookup_singleton_ne. intros <-. by apply NODE_ENV_not_inherited.
  - intros Hbefore Hloaded. rewrite Hout, Hbefore, Hloaded.
    assert (Hmerge : ({[ "FOO" := "existing" ]} : Env)
                     ∪ notInherited {[ "FOO" := "loaded"; "BAR" := "baz" ]}
                     = {[ "FOO" := "existing"; "BAR" := "baz" ]})
      by (vm_compute; reflexivity).
    rewrite Hmerge. by rewrite <- insert_union_l, <- insert_union_singleton_l.
Qed.

(** C8. The hook returns, and the name it resolved the files with is
    [process.env.NODE_ENV || "development"].  If [output.env] had no
    [NODE_ENV] entry and the files supplied none, [output.env.NODE_ENV] is
    that name afterwards; if [output.env] had a [NODE_ENV] entry, its
    value is unchanged. *)
Theorem shell_env_defaults_NODE_ENV
    (host : Host) (directory : string) (input : Input) (output : loc) (σ : Heap) :
  let basePath := nullish_or (cwd input) directory in
  let nodeEnv := str_or (NODE_ENV host) "development" in
  let options := {| nodeEnv := Some nodeEnv; overload := None |} in
  ∃ loaded σ',
    outcome (loadDotEnvFiles host basePath (Some options)) = Returned loaded
    ∧ effectiveNodeEnv host options = nodeEnv
    ∧ take 4 (accessed (trace (loadDotEnvFiles host basePath (Some options))))
      = candidateFiles host basePath nodeEnv
    ∧ outcome (hook_shell_env (LoadDotEnv host directory) input output σ)
      = Returned σ'
    ∧ (output_env σ output !! "NODE_ENV" = None →
       loaded !! "NODE_ENV" = None →
       output_env σ' output !! "NODE_ENV" = Some nodeEnv)
    ∧ (∀ value, output_env σ output !! "NODE_ENV" = Some value →
                output_env σ' output !! "NODE_ENV" = Some value).
Proof.
  intros basePath nodeEnv options. subst options.
  destruct (shell_env_output host directory input output σ) as (_ & _ & Hout).
  fold basePath nodeEnv in Hout.
  eexists _, _. split.
  { rewrite loadDotEnvFiles_run. cbn [default from_option id overload truthy].
    rewrite effectiveNodeEnv_hook. reflexivity. }
  split; [apply effectiveNodeEnv_hook|].
  split.
  { rewrite first_four_probes. cbn [default from_option id].
    by rewrite effectiveNodeEnv_hook. }
  split; [cbn [LoadDotEnv hook_shell_env]; by rewrite shell_env_run|].
  cbn [outcome fst]. fold basePath nodeEnv. split.
  - intros Hnone Hloaded. rewrite Hout.
    rewrite lookup_union_r; [apply lookup_singleton_eq|].
    apply lookup_union_None. split; [done|].
    rewrite lookup_notInherited. by case_decide.
  - intros value Hk. rewrite Hout.
    apply lookup_union_Some_raw. left. apply lookup_union_Some_raw. by left.
Qed.

(** C9. The hook calls [loadDotEnvFiles] with [nodeEnv] only, so the
    call is the forward loop alone: the events of the hook are those of
    the forward loop over the four candidates, each candidate is probed
    once, and every [config] call is non-destructive. *)
Theorem shell_env_forward_pass_only
    (host : Host) (directory : string) (input : Input) (output : loc) (σ : Heap) :
  let basePath := nullish_or (cwd input) directory in
  let nodeEnv := str_or (NODE_ENV host) "development" in
  let files := candidateFiles host basePath nodeEnv in
  let run := hook_shell_env (LoadDotEnv host directory) input output σ in
  ∃ loaded,
    outcome (forwardLoop host files ∅) = Returned loaded
    ∧ loadDotEnvFiles host basePath
        (Some {| nodeEnv := Some nodeEnv; overload := None |})
      = forwardLoop host files ∅
    ∧ outcome run
      = Returned (defaultNodeEnv nodeEnv output (mergeLoaded loaded output σ))
    ∧ trace run = trace (forwardLoop host files ∅)
    ∧ accessed (trace run) = files
    ∧ (∀ path mode, (path, mode) ∈ configured (trace run) → mode = false).
Proof.
  intros basePath nodeEnv files run. exists (forwardEnv host files ∅).
  rewrite forwardLoop_run.
  split; [done|]. split.
  { rewrite loadDotEnvFiles_run. cbn [default from_option id overload truthy].
    rewrite effectiveNodeEnv_hook. reflexivity. }
  assert (Hrun : run = (Returned (defaultNodeEnv nodeEnv output
                                    (mergeLoaded (forwardEnv host files ∅) output σ)),
                        forwardTrace host files ∅)).
  { subst run. cbn [LoadDotEnv hook_shell_env]. apply shell_env_run. }
  rewrite Hrun. cbn [outcome trace fst snd].
  split; [done|]. split; [done|]. split.
  - apply forwardTrace_accessed.
  - intros path mode. rewrite forwardTrace_configured, list_elem_of_fmap.
    by intros [f [[= _ ->] _]].
Qed.

(** ** Failures *)

(** C5. The call always returns a mapping.  When [access] is rejected
    for each of the four candidates, as it is when the base directory is
    missing or unreadable, it returns the empty mapping, having only
    probed the candidates: nothing is parsed and nothing is logged. *)
Theorem loadDotEnvFiles_never_throws
    (host : Host) (basePath : string) (options : option LoadDotEnvOptions) :
  let opts := default emptyOptions options in
  let files := candidateFiles host basePath (effectiveNodeEnv host opts) in
  (∃ env, outcome (loadDotEnvFiles host basePath options) = Returned env)
  ∧ ((∀ file, file ∈ files → is_Some (fs_access host file)) →
     loadDotEnvFiles host basePath options
     = (Returned ∅,
        EvAccess <$> files ++ (if truthy (overload opts) then reverse files else []))).
Proof.
  intros opts files. rewrite loadDotEnvFiles_run. fold opts. fold files. split.
  - destruct (truthy (overload opts)); by eexists.
  - intros Hrej.
    assert (Hnone : ∀ file, file ∈ files → fileFound host file = false).
    { intros file Hin. by apply fileFound_false, Hrej. }
    destruct (forwardLoop_nothing_found host files ∅ Hnone) as [-> ->].
    destruct (truthy (overload opts)).
    + destruct (reverseLoop_nothing_found host (reverse files) ∅) as [-> ->].
      { intros file Hin. by apply Hnone, elem_of_reverse. }
      by rewrite fmap_app, (left_id_L ∅ (∪)).
    + by rewrite app_nil_r.
Qed.

(** What does hold of the logging: the call returns whatever the parser
    reports.  Every
    error other than a missing file that [config] reports in the forward
    pass is logged together with the path of the file.  Neither pass
    stops early: all candidates are probed, and every candidate found is
    handed to the parser, in the forward pass and, under [overload], in
    the reverse pass.  Reading a further file, malformed or not, keeps
    every entry the forward pass had merged from the files before it. *)
Theorem forward_errors_logged_resolution_continues
    (host : Host) (basePath : string) (options : option LoadDotEnvOptions) :
  let opts := default emptyOptions options in
  let files := candidateFiles host basePath (effectiveNodeEnv host opts) in
  let found := filter (λ file, fileFound host file = true) in
  let run := loadDotEnvFiles host basePath options in
  (∃ env, outcome run = Returned env)
  ∧ (∀ path err,
       EvConfig path false (Some err) ∈ trace run →
       code err ≠ Some "MISSING_ENV_FILE" →
       EvConsoleError path err ∈ trace run)
  ∧ accessed (trace run)
    = files ++ (if truthy (overload opts) then reverse files else [])
  ∧ configured (trace run)
    = ((λ file, (file, false)) <$> found files)
      ++ (if truthy (overload opts)
          then (λ file, (file, true)) <$> found (reverse files) else [])
  ∧ (∀ pre file post before key value,
       files = pre ++ file :: post →
       outcome (forwardLoop host pre ∅) = Returned before →
       before !! key = Some value →
       ∃ after, outcome (forwardLoop host files ∅) = Returned after
                ∧ after !! key = Some value).
Proof.
  intros opts files found run. subst run found.
  rewrite loadDotEnvFiles_run. fold opts. fold files.
  split; [destruct (truthy (overload opts)); by eexists|].
  split; [|split; [|split]].
  - intros path err Hin Hcode.
    destruct (truthy (overload opts)); cbn [trace snd] in *.
    + apply elem_of_app in Hin as [Hin|Hin].
      * apply elem_of_app. left. by eapply forwardTrace_logs.
      * by apply reverseTrace_destructive in Hin.
    + by eapply forwardTrace_logs.
  - destruct (truthy (overload opts)); cbn [trace snd].
    + by rewrite accessed_app, forwardTrace_accessed, reverseTrace_accessed.
    + by rewrite forwardTrace_accessed, app_nil_r.
  - destruct (truthy (overload opts)); cbn [trace snd].
    + by rewrite configured_app, forwardTrace_configured, reverseTrace_configured.
    + by rewrite forwardTrace_configured, app_nil_r.
  - intros pre file post before key value Hfiles Hpre Hk.
    rewrite forwardLoop_run in Hpre. injection Hpre as <-.
    rewrite forwardLoop_run. eexists. split; [reflexivity|].
    rewrite Hfiles, forwardEnv_app. by apply forwardEnv_keeps.
Qed.

(** ** Defaults *)

(** C7 (amended). The name used by the call is [options.nodeEnv] when
    supplied and not empty, otherwise [process.env.NODE_ENV] when set and
    not empty, otherwise ["development"]; the four files probed first are
    the candidates for that name.  With [overload] omitted the call is
    the one with [overload: false], every [config] call is
    non-destructive, and omitting [options] altogether is the same as
    passing no [nodeEnv] and [overload: false]. *)
Theorem effectiveNodeEnv_and_overload_defaults
    (host : Host) (basePath : string) (options : LoadDotEnvOptions) :
  let run := loadDotEnvFiles host basePath (Some options) in
  (∀ s, nodeEnv options = Some s → s ≠ EmptyString → effectiveNodeEnv host options = s)
  ∧ (nodeEnv options = None ∨ nodeEnv options = Some EmptyString →
     ∀ s, NODE_ENV host = Some s → s ≠ EmptyString → effectiveNodeEnv host options = s)
  ∧ (nodeEnv options = None ∨ nodeEnv options = Some EmptyString →
     NODE_ENV host = None ∨ NODE_ENV host = Some EmptyString →
     effectiveNodeEnv host options = "development")
  ∧ take 4 (accessed (trace run))
    = candidateFiles host basePath (effectiveNodeEnv host options)
  ∧ (overload options = None →
     run = loadDotEnvFiles host basePath
             (Some {| nodeEnv := nodeEnv options; overload := Some false |})
     ∧ ∀ path mode, (path, mode) ∈ configured (trace run) → mode = false)
  ∧ loadDotEnvFiles host basePath None
    = loadDotEnvFiles host basePath
        (Some {| nodeEnv := None; overload := Some false |}).
Proof.
  intros run. split; [|split; [|split; [|split; [|split]]]].
  - intros s Hs Hne. unfold effectiveNodeEnv. rewrite Hs. by apply str_or_Some.
  - intros Habs s Hs Hne. unfold effectiveNodeEnv.
    rewrite str_or_falsy by done. rewrite Hs. by apply str_or_Some.
  - intros Habs Hamb. unfold effectiveNodeEnv. by rewrite !str_or_falsy.
  - apply (first_four_probes host basePath (Some options)).
  - intros Hov. subst run. rewrite !loadDotEnvFiles_run.
    cbn [default from_option id overload truthy]. rewrite Hov. cbn [truthy default from_option id].
    split; [done|]. intros path mode. cbn [trace snd].
    rewrite forwardTrace_configured, list_elem_of_fmap.
    by intros [f [[= _ ->] _]].
  - by rewrite !loadDotEnvFiles_run.
Qed.



(** ** The theorems at work on the fixtures *)

Ltac by_evaluation := vm_compute; reflexivity.
Ltac by_decision :=
  lazymatch goal with
  | |- ?P => apply (bool_decide_unpack P); vm_compute; exact I
  end.


(** [fxFour] under [overload]: [K] is defined by all four files,
    [LOG_LEVEL] by the three lower ones and [APP_NAME] by [.env] alone. *)
Lemma overload_two_passes_witness :
  let host := fixtureHost fxFour None in
  ∃ overloadedEnv result,
    outcome (reverseLoop host
               (reverse (candidateFiles host "/app" "development")) ∅)
    = Returned overloadedEnv
    ∧ outcome (loadDotEnvFiles host "/app"
                 (Some {| nodeEnv := Some "development"; overload := Some true |}))
      = Returned result
    ∧ result !! "K" = Some "dev-local"
    ∧ (overloadedEnv !! "LOG_LEVEL" = Some "debug"
       ∧ result !! "LOG_LEVEL" = Some "debug")
    ∧ (overloadedEnv !! "APP_NAME" = Some "TestApp"
       ∧ result !! "APP_NAME" = Some "TestApp").
Proof.
  intros host.
  destruct (loadDotEnvFiles_overload_two_passes
              host "/app"
              {| nodeEnv := Some "development"; overload := Some true |}
              eq_refl)
    as (primary & overloadedEnv & result & _ & Hback & _ & Hrun & _ & _ & _ & Htop
        & Hlast & _).
  exists overloadedEnv, result.
  split; [exact Hback|]. split; [exact Hrun|]. split; [|split].
  - apply (Htop "K" "dev-local"
                (list_to_map [("K", "dev"); ("LOG_LEVEL", "debug");
                              ("APP_NAME", "TestApp")]));
      by_evaluation.
  - refine (Hlast ["/app/.env"; "/app/.env.local"] "/app/.env.development"
                  ["/app/.env.development.local"] "LOG_LEVEL" "debug"
                  (list_to_map [("K", "local"); ("LOG_LEVEL", "local");
                                ("APP_NAME", "TestApp")]) _ _ _ _ _);
      [by_evaluation..|].
    intros g e Hg _. apply list_elem_of_singleton in Hg as ->. by_evaluation.
  - refine (Hlast [] "/app/.env"
                  ["/app/.env.local"; "/app/.env.development";
                   "/app/.env.development.local"] "APP_NAME" "TestApp" ∅
                  _ _ _ _ _);
      [by_evaluation..|].
    intros g e Hg _.
    apply elem_of_cons in Hg as [->|Hg]; [by_evaluation|].
    apply elem_of_cons in Hg as [->|Hg]; [by_evaluation|].
    apply list_elem_of_singleton in Hg as ->. by_evaluation.
Defined.

Lemma candidate_files_fixed_order_witness :
  accessed (trace (loadDotEnvFiles (fixtureHost fxFour (Some "production")) "/app" None))
  = [ "/app/.env.production.local"; "/app/.env.production";
      "/app/.env.local"; "/app/.env" ]
  ∧ "/app/.env" ∈ [ "/app/.env.production.local"; "/app/.env.production";
                    "/app/.env.local"; "/app/.env" ].
Proof.
  destruct (candidate_files_fixed_order
              (fixtureHost fxFour (Some "production")) "/app" None)
    as (_ & Hacc & _ & Hcfg).
  split; [exact Hacc|].
  apply (Hcfg "/app/.env" false). by_decision.
Defined.

(** The integration example: [heapFoo] holds [{FOO: "existing"}], the
    directory [fxHook] supplies [{FOO: "loaded", BAR: "baz"}]. *)
Lemma shell_env_keeps_existing_entries_witness :
  ∃ σ',
    outcome (hook_shell_env (LoadDotEnv (fixtureHost fxHook None) "/srv")
               {| cwd := Some "/app" |} 0 heapFoo) = Returned σ'
    ∧ env_of σ' 0 = 1
    ∧ output_env σ' 0
      = {[ "FOO" := "existing"; "BAR" := "baz"; "NODE_ENV" := "development" ]}.
Proof.
  destruct (shell_env_keeps_existing_entries
              (fixtureHost fxHook None) "/srv" {| cwd := Some "/app" |} 0 heapFoo)
    as (loaded & σ' & Hloaded & Hrun & Hfield & _ & _ & _ & _ & _ & Hexample).
  exists σ'. split; [exact Hrun|]. split; [apply Hfield|].
  apply Hexample; [by_evaluation|].
  vm_compute in Hloaded. injection Hloaded as <-. by_evaluation.
Defined.

Lemma shell_env_defaults_NODE_ENV_witness :
  (∃ σ',
     outcome (hook_shell_env (LoadDotEnv (fixtureHost fxHook (Some "production")) "/app")
                {| cwd := None |} 0 heapFoo) = Returned σ'
     ∧ output_env σ' 0 !! "NODE_ENV" = Some "production")
  ∧ (∃ σ',
       outcome (hook_shell_env (LoadDotEnv (fixtureHost fxHook (Some "production")) "/app")
                  {| cwd := None |} 0 heapNodeEnv) = Returned σ'
       ∧ output_env σ' 0 !! "NODE_ENV" = Some "staging").
Proof.
  split.
  - destruct (shell_env_defaults_NODE_ENV
                (fixtureHost fxHook (Some "production")) "/app" {| cwd := None |} 0 heapFoo)
      as (loaded & σ' & Hloaded & _ & _ & Hrun & Hset & _).
    exists σ'. split; [exact Hrun|]. apply Hset; [by_evaluation|].
    vm_compute in Hloaded. injection Hloaded as <-. by_evaluation.
  - destruct (shell_env_defaults_NODE_ENV
                (fixtureHost fxHook (Some "production")) "/app" {| cwd := None |} 0 heapNodeEnv)
      as (loaded & σ' & _ & _ & _ & Hrun & _ & Hkeep).
    exists σ'. split; [exact Hrun|]. apply Hkeep. by_evaluation.
Defined.

Lemma shell_env_forward_pass_only_witness :
  let run := hook_shell_env (LoadDotEnv (fixtureHost fxFour None) "/app")
               {| cwd := None |} 0 heapFoo in
  accessed (trace run)
  = [ "/app/.env.development.local"; "/app/.env.development";
      "/app/.env.local"; "/app/.env" ]
  ∧ Forall (λ call, call.2 = false) (configured (trace run)).
Proof.
  destruct (shell_env_forward_pass_only
              (fixtureHost fxFour None) "/app" {| cwd := None |} 0 heapFoo)
    as (loaded & _ & _ & _ & _ & Hacc & Hmode).
  split; [exact Hacc|].
  apply Forall_forall. intros [path mode] Hin. exact (Hmode path mode Hin).
Defined.

(** A base directory that does not exist: every probe is rejected. *)
Lemma never_throws_witness :
  loadDotEnvFiles (fixtureHost ∅ None) "/nowhere"
    (Some {| nodeEnv := None; overload := Some true |})
  = (Returned ∅,
     EvAccess <$> [ "/nowhere/.env.development.local"; "/nowhere/.env.development";
                    "/nowhere/.env.local"; "/nowhere/.env";
                    "/nowhere/.env"; "/nowhere/.env.local";
                    "/nowhere/.env.development"; "/nowhere/.env.development.local" ]).
Proof.
  destruct (loadDotEnvFiles_never_throws (fixtureHost ∅ None) "/nowhere"
              (Some {| nodeEnv := None; overload := Some true |}))
    as [_ Hempty].
  apply Hempty. intros file _. by eexists.
Defined.

(** [fxMalformed]: the error of [.env.development] is logged, and the
    entry merged from [.env.development.local] before it is kept. *)
Lemma forward_errors_logged_witness :
  EvConsoleError "/app/.env.development" SYNTAX_ERROR
    ∈ trace (loadDotEnvFiles (fixtureHost fxMalformed None) "/app" None)
  ∧ ∃ after,
      outcome (forwardLoop (fixtureHost fxMalformed None)
                 [ "/app/.env.development.local"; "/app/.env.development";
                   "/app/.env.local"; "/app/.env" ] ∅) = Returned after
      ∧ after !! "TOKEN" = Some "abc".
Proof.
  destruct (forward_errors_logged_resolution_continues
              (fixtureHost fxMalformed None) "/app" None)
    as (_ & Hlog & _ & _ & Hkeep).
  split.
  - apply Hlog; [by_decision|done].
  - apply (Hkeep ["/app/.env.development.local"] "/app/.env.development"
                 ["/app/.env.local"; "/app/.env"]
                 {[ "TOKEN" := "abc" ]} "TOKEN" "abc"); by_evaluation.
Defined.

(** [options.nodeEnv] wins when it is not empty; with [overload] omitted
    the call is the one with [overload: false]. *)
Lemma effectiveNodeEnv_and_overload_defaults_witness :
  let host := fixtureHost fxFour (Some "production") in
  effectiveNodeEnv host {| nodeEnv := Some "test"; overload := None |} = "test"
  ∧ effectiveNodeEnv host {| nodeEnv := None; overload := None |} = "production"
  ∧ effectiveNodeEnv (fixtureHost fxFour None) {| nodeEnv := None; overload := None |}
    = "development"
  ∧ loadDotEnvFiles host "/app" (Some {| nodeEnv := Some "test"; overload := None |})
    = loadDotEnvFiles host "/app" (Some {| nodeEnv := Some "test"; overload := Some false |}).
Proof.
  intros host.
  destruct (effectiveNodeEnv_and_overload_defaults
              host "/app" {| nodeEnv := Some "test"; overload := None |})
    as (Hopt & _ & _ & _ & Hov & _).
  destruct (effectiveNodeEnv_and_overload_defaults
              host "/app" {| nodeEnv := None; overload := None |})
    as (_ & Hamb & _).
  destruct (effectiveNodeEnv_and_overload_defaults
              (fixtureHost fxFour None) "/app" {| nodeEnv := None; overload := None |})
    as (_ & _ & Hdef & _).
  split; [by apply Hopt|]. split; [apply Hamb; [by left|done|done]|].
  split; [apply Hdef; by left|]. by apply Hov.
Defined.


(** ** Where the stated claims fail *)

(** C6 (failing input). Errors of the reverse pass are not logged: on
    [fxSecret] with [overload: true], the destructive read of [.env]
    reports a decryption failure, which is not a missing file, and the
    call logs nothing, where the forward loop logs every such error of
    its own reads. *)
Lemma reverse_pass_error_not_logged :
  let run := loadDotEnvFiles (fixtureHost fxSecret None) "/app"
               (Some {| nodeEnv := None; overload := Some true |}) in
  EvConfig "/app/.env" true (Some DECRYPTION_FAILED) ∈ trace run
  ∧ code DECRYPTION_FAILED ≠ Some "MISSING_ENV_FILE"
  ∧ (EvConsoleError "/app/.env" DECRYPTION_FAILED ∉ trace run)
  ∧ logged (trace run) = [].
Proof.
  intros run. split; [by_decision|]. split; [done|]. split; [|by_evaluation].
  apply (proj1 (bool_decide_eq_false _)). by_evaluation.
Qed.

(** C4 as stated fails on its example, read of the hook: with
    [{FOO: "existing"}] before and [{FOO: "loaded", BAR: "baz"}] loaded,
    the hook leaves three entries, the third being the [NODE_ENV]
    default of lines 82-84. *)
Lemma shell_env_example_has_NODE_ENV :
  let host := fixtureHost fxHook None in
  output_env heapFoo 0 = {[ "FOO" := "existing" ]}
  ∧ outcome (loadDotEnvFiles host "/app"
               (Some {| nodeEnv := Some "development"; overload := None |}))
    = Returned {[ "FOO" := "loaded"; "BAR" := "baz" ]}
  ∧ ∃ σ',
      outcome (hook_shell_env (LoadDotEnv host "/app") {| cwd := None |} 0 heapFoo)
      = Returned σ'
      ∧ output_env σ' 0
        = {[ "FOO" := "existing"; "BAR" := "baz"; "NODE_ENV" := "development" ]}
      ∧ output_env σ' 0 ≠ {[ "FOO" := "existing"; "BAR" := "baz" ]}.
Proof.
  intros host. split; [by_evaluation|]. split; [by_evaluation|].
  eexists. split; [reflexivity|]. split; [by_evaluation|].
  intros Heq. apply (f_equal (lookup "NODE_ENV")) in Heq.
  vm_compute in Heq. discriminate Heq.
Qed.


(** C7 as stated fails for a supplied but empty [options.nodeEnv]: the
    name used is the ambient one, and the files probed are those of
    [production]. *)
Lemma empty_nodeEnv_option_not_used :
  let host := fixtureHost ∅ (Some "production") in
  let options := {| nodeEnv := Some EmptyString; overload := None |} in
  nodeEnv options = Some EmptyString
  ∧ effectiveNodeEnv host options ≠ EmptyString
  ∧ effectiveNodeEnv host options = "production"
  ∧ accessed (trace (loadDotEnvFiles host "/app" (Some options)))
    = [ "/app/.env.production.local"; "/app/.env.production";
        "/app/.env.local"; "/app/.env" ].
Proof.
  intros host options. split; [done|]. split; [done|]. split; by_evaluation.
Qed.

(** * Further properties of the module *)

(** ** [fileExists] *)

(** X1. [fileExists] never throws: it probes the path once and returns
    [true] when [access] is fulfilled, and when [access] is rejected,
    with whatever exception, it returns [false]. *)
Theorem fileExists_swallows_rejection (host : Host) (filePath : string) :
  trace (fileExists host filePath) = [EvAccess filePath]
  ∧ (fs_access host filePath = None →
     outcome (fileExists host filePath) = Returned true)
  ∧ (∀ exn, fs_access host filePath = Some exn →
            outcome (access host filePath) = Thrown exn
            ∧ outcome (fileExists host filePath) = Returned false).
Proof.
  unfold fileExists, access. split; [|split].
  - by destruct (fs_access host filePath).
  - by intros ->.
  - by intros exn ->.
Qed.

Lemma fileExists_swallows_rejection_witness :
  outcome (fileExists (fixtureHost fxFour None) "/app/.env") = Returned true
  ∧ outcome (access (fixtureHost fxFour None) "/app/.env.test") = Thrown "ENOENT"
  ∧ outcome (fileExists (fixtureHost fxFour None) "/app/.env.test") = Returned false.
Proof.
  destruct (fileExists_swallows_rejection (fixtureHost fxFour None) "/app/.env")
    as (_ & Hok & _).
  destruct (fileExists_swallows_rejection (fixtureHost fxFour None) "/app/.env.test")
    as (_ & _ & Hrej).
  split; [apply Hok; by_evaluation|]. apply Hrej. by_evaluation.
Defined.

(** ** Where the entries of the result come from *)

Section Provenance.

Variable host : Host.



(** Only errors that are not a missing file are logged, each right
    after the [config] call that reported it. *)
Lemma forwardTrace_logged_from files processEnv file err :
  EvConsoleError file err ∈ forwardTrace host files processEnv →
  code err ≠ Some "MISSING_ENV_FILE"
  ∧ EvConfig file false (Some err) ∈ forwardTrace host files processEnv.
Proof.
  revert processEnv. induction files as [|g rest IH]; intros processEnv Hin.
  - by apply elem_of_nil in Hin.
  - cbn [forwardTrace] in *. destruct (fileFound host g).
    + apply elem_of_cons in Hin as [?|Hin]; [done|].
      apply elem_of_cons in Hin as [?|Hin]; [done|].
      apply elem_of_app in Hin as [Hin|Hin].
      * destruct (error _) as [e|] eqn:He; cbn in Hin;
          [case_bool_decide as Hcode|]; try by apply elem_of_nil in Hin.
        apply list_elem_of_singleton in Hin as [= -> ->]. split; [done|].
        apply list_elem_of_further, list_elem_of_here.
      * destruct (IH _ Hin) as [Hcode Hcfg]. split; [done|].
        do 2 apply list_elem_of_further. apply elem_of_app. by right.
    + apply elem_of_cons in Hin as [?|Hin]; [done|].
      destruct (IH _ Hin) as [Hcode Hcfg]. split; [done|].
      by apply list_elem_of_further.
Qed.

Lemma reverseTrace_silent files overloadedEnv file err :
  EvConsoleError file err ∉ reverseTrace host files overloadedEnv.
Proof.
  revert overloadedEnv. induction files as [|g rest IH]; intros overloadedEnv Hin.
  - by apply elem_of_nil in Hin.
  - cbn [reverseTrace] in Hin. destruct (fileFound host g).
    + apply elem_of_cons in Hin as [?|Hin]; [done|].
      apply elem_of_cons in Hin as [?|Hin]; [done|]. by eapply IH.
    + apply elem_of_cons in Hin as [?|Hin]; [done|]. by eapply IH.
Qed.

(** *** A parser that reads every file the same way *)

Variable content : string → Env.
Hypothesis static :
  ∀ path mode target, parsed (dotenvx_read host path mode target) = content path.

Lemma staticMerge_app pre post :
  staticMerge host content (pre ++ post)
  = staticMerge host content pre ∪ staticMerge host content post.
Proof.
  induction pre as [|file pre IH]; cbn.
  - by rewrite (left_id_L ∅ (∪)).
  - by rewrite IH, (assoc_L (∪)).
Qed.

Lemma forwardEnv_static files processEnv :
  forwardEnv host files processEnv = processEnv ∪ staticMerge host content files.
Proof.
  revert processEnv. induction files as [|file rest IH]; intros processEnv; cbn.
  - by rewrite (right_id_L ∅ (∪)).
  - destruct (fileFound host file); rewrite IH.
    + by rewrite static, (assoc_L (∪)).
    + by rewrite (left_id_L ∅ (∪)).
Qed.

Lemma reverseEnv_static files overloadedEnv :
  reverseEnv host files overloadedEnv
  = staticMerge host content (reverse files) ∪ overloadedEnv.
Proof.
  revert overloadedEnv. induction files as [|file rest IH]; intros overloadedEnv.
  - cbn. by rewrite (left_id_L ∅ (∪)).
  - rewrite reverse_cons, staticMerge_app. cbn [reverseEnv staticMerge].
    destruct (fileFound host file); rewrite IH.
    + by rewrite static, (right_id_L ∅ (∪)), (assoc_L (∪)).
    + by rewrite !(right_id_L ∅ (∪)).
Qed.

End Provenance.



(** X3. When the parser reads every file the same way in both modes and
    whatever the target mapping holds, [overload] makes no difference to
    the returned mapping: the reverse destructive pass rebuilds exactly
    what the forward pass had merged. *)
Theorem overload_irrelevant_for_static_files
    (host : Host) (content : string → Env) (basePath : string)
    (name : option string) :
  (∀ path mode target, parsed (dotenvx_read host path mode target) = content path) →
  outcome (loadDotEnvFiles host basePath
             (Some {| nodeEnv := name; overload := Some true |}))
  = outcome (loadDotEnvFiles host basePath
               (Some {| nodeEnv := name; overload := Some false |})).
Proof.
  intros Hstatic. rewrite !loadDotEnvFiles_run.
  cbn [default from_option id overload truthy outcome fst].
  change (effectiveNodeEnv host {| nodeEnv := name; overload := Some true |})
    with (effectiveNodeEnv host {| nodeEnv := name; overload := Some false |}).
  rewrite (reverseEnv_static host content Hstatic), reverse_involutive.
  rewrite (forwardEnv_static host content Hstatic).
  by rewrite !(left_id_L ∅ (∪)), (right_id_L ∅ (∪)), (idemp_L (∪)).
Qed.

Lemma overload_irrelevant_for_static_files_witness :
  outcome (loadDotEnvFiles (staticHost fsStatic None) "/app"
             (Some {| nodeEnv := None; overload := Some true |}))
  = outcome (loadDotEnvFiles (staticHost fsStatic None) "/app"
               (Some {| nodeEnv := None; overload := Some false |})).
Proof.
  apply (overload_irrelevant_for_static_files
           (staticHost fsStatic None) (λ path, default ∅ (fsStatic !! path))).
  intros path mode target. reflexivity.
Defined.

(** X4. Only errors are logged that are not a missing file: every log
    entry of a call repeats, with the path of the file, an error whose
    code is not [MISSING_ENV_FILE] and that a non-destructive [config]
    call on that file reported. *)
Theorem only_real_errors_are_logged
    (host : Host) (basePath : string) (options : option LoadDotEnvOptions)
    (file : string) (err : DotenvError) :
  EvConsoleError file err ∈ trace (loadDotEnvFiles host basePath options) →
  code err ≠ Some "MISSING_ENV_FILE"
  ∧ EvConfig file false (Some err) ∈ trace (loadDotEnvFiles host basePath options).
Proof.
  rewrite loadDotEnvFiles_run.
  destruct (truthy _); cbn [trace snd]; intros Hin.
  - apply elem_of_app in Hin as [Hin|Hin].
    + apply forwardTrace_logged_from in Hin as [Hcode Hcfg].
      split; [done|]. apply elem_of_app. by left.
    + by apply reverseTrace_silent in Hin.
  - by apply forwardTrace_logged_from.
Qed.

Lemma only_real_errors_are_logged_witness :
  code SYNTAX_ERROR ≠ Some "MISSING_ENV_FILE"
  ∧ EvConfig "/app/.env.development" false (Some SYNTAX_ERROR)
      ∈ trace (loadDotEnvFiles (fixtureHost fxMalformed None) "/app" None).
Proof.
  apply (only_real_errors_are_logged (fixtureHost fxMalformed None) "/app" None).
  by_decision.
Defined.

(** ** The hook as a whole *)

Lemma Returned_inj {A} (a b : A) : Returned a = Returned b → a = b.
Proof. congruence. Qed.

Lemma union_absorb (a b c : Env) : (((a ∪ b) ∪ c) ∪ b) ∪ c = (a ∪ b) ∪ c.
Proof.
  apply map_eq. intros k. rewrite !lookup_union.
  by destruct (a !! k), (b !! k), (c !! k).
Qed.

(** X5. What the hook leaves in [output.env] is the caller's entries,
    completed by the loaded entries whose name the object does not
    inherit, completed by the default [NODE_ENV]: for every key the
    caller's value comes first, then the files', then the default.  Its
    keys are the caller's keys, the loaded keys that are not inherited
    names, and [NODE_ENV], and no others. *)
Theorem shell_env_result
    (host : Host) (directory : string) (input : Input) (output : loc)
    (σ σ' : Heap) (loaded : Env) :
  let basePath := nullish_or (cwd input) directory in
  let nodeEnv := str_or (NODE_ENV host) "development" in
  outcome (loadDotEnvFiles host basePath
             (Some {| nodeEnv := Some nodeEnv; overload := None |}))
  = Returned loaded →
  outcome (hook_shell_env (LoadDotEnv host directory) input output σ)
  = Returned σ' →
  output_env σ' output
  = (output_env σ output ∪ notInherited loaded) ∪ {[ "NODE_ENV" := nodeEnv ]}
  ∧ (∀ key,
       is_Some (output_env σ' output !! key)
       ↔ is_Some (output_env σ output !! key)
         ∨ (is_Some (loaded !! key) ∧ key ∉ Object_prototype)
         ∨ key = "NODE_ENV").
Proof.
  intros basePath nodeEnv. subst basePath nodeEnv. intros Hloaded Hrun.
  rewrite loadDotEnvFiles_run in Hloaded.
  cbn [default from_option id overload truthy outcome fst] in Hloaded.
  rewrite effectiveNodeEnv_hook in Hloaded.
  apply Returned_inj in Hloaded. subst loaded.
  cbn [LoadDotEnv hook_shell_env] in Hrun. rewrite shell_env_run in Hrun.
  apply Returned_inj in Hrun. subst σ'.
  destruct (shell_env_output host directory input output σ) as (_ & _ & Hout).
  split; [exact Hout|].
  intros key.
  rewrite Hout, !lookup_union_is_Some, lookup_notInherited, lookup_singleton_is_Some.
  case_decide as Hproto.
  - split; [intros [[?|Hk]|?]; [by left|by apply is_Some_None in Hk|by right; right]|].
    intros [?|[[_ ?]|?]]; [by left; left|done|by right].
  - split; [intros [[?|?]|?]; [by left|by right; left|by right; right]|].
    intros [?|[[? _]|?]]; [by left; left|by left; right|by right].
Qed.

Lemma shell_env_result_witness :
  ∃ σ',
    outcome (hook_shell_env (LoadDotEnv (fixtureHost fxInherited None) "/app")
               {| cwd := None |} 0 heapFoo) = Returned σ'
    ∧ output_env σ' 0
      = {[ "FOO" := "existing"; "BAR" := "baz"; "NODE_ENV" := "development" ]}
    ∧ (is_Some (output_env σ' 0 !! "constructor")
       ↔ is_Some (output_env heapFoo 0 !! "constructor")
         ∨ (is_Some ((list_to_map [("FOO", "loaded"); ("BAR", "baz");
                                   ("constructor", "loaded")] : Env)
                       !! "constructor")
            ∧ "constructor" ∉ Object_prototype)
         ∨ "constructor" = "NODE_ENV").
Proof.
  assert (Hloaded :
    outcome (loadDotEnvFiles (fixtureHost fxInherited None) "/app"
               (Some {| nodeEnv := Some "development"; overload := None |}))
    = Returned (list_to_map [("FOO", "loaded"); ("BAR", "baz");
                             ("constructor", "loaded")] : Env))
    by by_evaluation.
  eexists. split; [reflexivity|].
  destruct (shell_env_result (fixtureHost fxInherited None) "/app" {| cwd := None |} 0
              heapFoo _ _ Hloaded eq_refl) as [Hout Hkeys].
  split.
  - etransitivity; [exact Hout|]. by_evaluation.
  - apply Hkeys.
Defined.

(** X6. A [NODE_ENV] entry supplied by the files reaches the shell when
    the caller has set none, in place of the name the files were
    resolved with. *)
Theorem shell_env_file_NODE_ENV_wins
    (host : Host) (directory : string) (input : Input) (output : loc)
    (σ : Heap) (loaded : Env) (value : string) :
  let basePath := nullish_or (cwd input) directory in
  let nodeEnv := str_or (NODE_ENV host) "development" in
  outcome (loadDotEnvFiles host basePath
             (Some {| nodeEnv := Some nodeEnv; overload := None |}))
  = Returned loaded →
  output_env σ output !! "NODE_ENV" = None →
  loaded !! "NODE_ENV" = Some value →
  ∃ σ',
    outcome (hook_shell_env (LoadDotEnv host directory) input output σ)
    = Returned σ'
    ∧ output_env σ' output !! "NODE_ENV" = Some value
    ∧ take 4 (accessed (trace (hook_shell_env (LoadDotEnv host directory)
                                 input output σ)))
      = candidateFiles host basePath nodeEnv.
Proof.
  intros basePath nodeEnv. subst basePath nodeEnv. intros Hloaded Hnone Hfile.
  rewrite loadDotEnvFiles_run in Hloaded.
  cbn [default from_option id overload truthy outcome fst] in Hloaded.
  rewrite effectiveNodeEnv_hook in Hloaded.
  apply Returned_inj in Hloaded. subst loaded.
  cbn [LoadDotEnv hook_shell_env]. rewrite shell_env_run.
  cbn [outcome trace fst snd]. eexists. split; [reflexivity|].
  destruct (shell_env_output host directory input output σ) as (_ & _ & Hout).
  split.
  - rewrite Hout. apply lookup_union_Some_raw. left.
    apply lookup_union_Some_raw. right. split; [done|].
    by rewrite lookup_notInherited, decide_False by apply NODE_ENV_not_inherited.
  - by rewrite forwardTrace_accessed.
Qed.

Lemma shell_env_file_NODE_ENV_wins_witness :
  let run := hook_shell_env (LoadDotEnv (fixtureHost fxStaging None) "/app")
               {| cwd := None |} 0 heapFoo in
  ∃ σ',
    outcome run = Returned σ'
    ∧ output_env σ' 0 !! "NODE_ENV" = Some "staging"
    ∧ take 4 (accessed (trace run))
      = [ "/app/.env.development.local"; "/app/.env.development";
          "/app/.env.local"; "/app/.env" ].
Proof.
  apply (shell_env_file_NODE_ENV_wins (fixtureHost fxStaging None) "/app"
           {| cwd := None |} 0 heapFoo
           (list_to_map [("NODE_ENV", "staging"); ("PORT", "8080")]) "staging");
    by_evaluation.
Defined.

(** X7. The hook is idempotent: run again on the heap it produced, with
    the same files, it returns and leaves every field and every
    dictionary as they were. *)
Theorem shell_env_idempotent
    (host : Host) (directory : string) (input : Input) (output : loc)
    (σ σ1 : Heap) :
  outcome (hook_shell_env (LoadDotEnv host directory) input output σ)
  = Returned σ1 →
  ∃ σ2,
    outcome (hook_shell_env (LoadDotEnv host directory) input output σ1)
    = Returned σ2
    ∧ (∀ o, env_of σ2 o = env_of σ1 o)
    ∧ (∀ l, dict σ2 l = dict σ1 l).
Proof.
  cbn [LoadDotEnv hook_shell_env]. rewrite !shell_env_run.
  cbn [outcome fst]. intros Hrun. apply Returned_inj in Hrun. subst σ1.
  eexists. split; [reflexivity|].
  destruct (shell_env_output host directory input output σ) as (Hf1 & _ & Hout1).
  set (σ1 := defaultNodeEnv _ output (mergeLoaded _ output σ)) in *.
  destruct (shell_env_output host directory input output σ1) as (Hf2 & Hd2 & Hout2).
  split; [exact Hf2|]. intros l.
  destruct (decide (l = env_of σ1 output)) as [->|Hne]; [|by apply Hd2].
  unfold output_env in Hout2. rewrite Hf2 in Hout2. rewrite Hout2.
  fold (output_env σ1 output). rewrite Hout1. apply union_absorb.
Qed.

Lemma shell_env_idempotent_witness :
  ∃ σ1 σ2,
    outcome (hook_shell_env (LoadDotEnv (fixtureHost fxHook None) "/app")
               {| cwd := None |} 0 heapTwo) = Returned σ1
    ∧ outcome (hook_shell_env (LoadDotEnv (fixtureHost fxHook None) "/app")
                 {| cwd := None |} 0 σ1) = Returned σ2
    ∧ dict σ2 1 = dict σ1 1
    ∧ dict σ2 1
      = {[ "PATH" := "/usr/bin"; "FOO" := "loaded"; "BAR" := "baz";
           "NODE_ENV" := "development" ]}.
Proof.
  eexists.
  destruct (shell_env_idempotent (fixtureHost fxHook None) "/app"
              {| cwd := None |} 0 heapTwo _ eq_refl) as (σ2 & Hrun & _ & Hdict).
  exists σ2. split; [reflexivity|]. split; [exact Hrun|].
  split; [apply Hdict|]. rewrite Hdict. by_evaluation.
Defined.

(** X8. A working directory given in the input replaces the configured
    directory altogether, even when it is the empty string: the hook
    then probes the candidates under [input.cwd] and behaves the same
    whatever directory it was created with. *)
Theorem shell_env_cwd_overrides_directory
    (host : Host) (directory directory' c : string) (output : loc) (σ : Heap) :
  let nodeEnv := str_or (NODE_ENV host) "development" in
  hook_shell_env (LoadDotEnv host directory) {| cwd := Some c |} output σ
  = hook_shell_env (LoadDotEnv host directory') {| cwd := Some c |} output σ
  ∧ accessed (trace (hook_shell_env (LoadDotEnv host directory)
                       {| cwd := Some c |} output σ))
    = candidateFiles host c nodeEnv
  ∧ accessed (trace (hook_shell_env (LoadDotEnv host directory)
                       {| cwd := None |} output σ))
    = candidateFiles host directory nodeEnv.
Proof.
  intros nodeEnv. cbn [LoadDotEnv hook_shell_env]. rewrite !shell_env_run.
  cbn [trace snd cwd nullish_or default from_option id].
  split; [done|]. by rewrite !forwardTrace_accessed.
Qed.

(** ** The candidate list *)

Ltac by_length Heq :=
  apply (f_equal String.length) in Heq;
  rewrite ?length_append in Heq; simpl in Heq; lia.

(** X9. The four candidate names are pairwise distinct for every
    environment name except [local].  For [local] the second candidate
    is the third one, [.env.local]: that path is probed twice in the
    forward pass and, when it is found, it is handed to the parser twice
    in a row. *)
Theorem local_candidate_read_twice
    (host : Host) (basePath : string) (options : option LoadDotEnvOptions) :
  let env := effectiveNodeEnv host (default emptyOptions options) in
  let names := [ ".env." +:+ env +:+ ".local"; ".env." +:+ env;
                 ".env.local"; ".env" ] in
  let file := join host basePath ".env.local" in
  let run := loadDotEnvFiles host basePath options in
  candidateFiles host basePath env = join host basePath <$> names
  ∧ (NoDup names ↔ env ≠ "local")
  ∧ (env = "local" →
     accessed (trace run) !! 1 = Some file
     ∧ accessed (trace run) !! 2 = Some file
     ∧ (outcome (fileExists host file) = Returned true →
        ∃ before after,
          configured (trace run)
          = before ++ (file, false) :: (file, false) :: after)).
Proof.
  intros env names file run. split; [done|]. split.
  - subst names. rewrite !NoDup_cons, !not_elem_of_cons. split.
    + intros (_ & (Hne & _) & _) ->. by apply Hne.
    + intros Hne. split; [|split; [|split; [|split]]].
      * split; [intros Heq; by_length Heq|].
        split; [intros Heq; by_length Heq|].
        split; [intros Heq; by_length Heq|apply not_elem_of_nil].
      * split; [|split; [intros Heq; by_length Heq|apply not_elem_of_nil]].
        intros Heq. injection Heq as Heq. by change (env = "local") in Heq.
      * split; [done|apply not_elem_of_nil].
      * apply not_elem_of_nil.
      * apply NoDup_nil_2.
  - intros Henv. subst run env. rewrite loadDotEnvFiles_run.
    unfold candidateFiles. rewrite Henv.
    change (".env." +:+ "local") with ".env.local". fold file.
    set (first := join host basePath (".env." +:+ "local" +:+ ".local")).
    set (last := join host basePath ".env").
    assert (Hacc : ∀ processEnv rest,
              accessed (forwardTrace host [first; file; file; last] processEnv ++ rest)
              = first :: file :: file :: last :: accessed rest).
    { intros processEnv rest. by rewrite accessed_app, forwardTrace_accessed. }
    assert (Hcfg : fileFound host file = true → ∀ processEnv rest,
              ∃ before after,
                configured (forwardTrace host [first; file; file; last] processEnv ++ rest)
                = before ++ (file, false) :: (file, false) :: after).
    { intros Hfound processEnv rest.
      rewrite configured_app, forwardTrace_configured, !filter_cons, filter_nil.
      rewrite !(decide_True (P := fileFound host file = true)) by done.
      exists ((λ f, (f, false)) <$> (if decide (fileFound host first = true)
                                     then [first] else [])),
             (((λ f, (f, false)) <$> (if decide (fileFound host last = true)
                                      then [last] else [])) ++ configured rest).
      by do 2 case_decide. }
    destruct (truthy _); cbn [trace snd].
    + rewrite Hacc. split; [done|]. split; [done|].
      intros Hfound. apply Hcfg. by apply fileExists_true.
    + rewrite <- (app_nil_r (forwardTrace _ _ _)), Hacc.
      split; [done|]. split; [done|].
      intros Hfound. apply Hcfg. by apply fileExists_true.
Qed.

(** The environment named [local] on [fxFour]: [.env.local] is probed at
    positions 1 and 2 and parsed twice. *)
Lemma local_candidate_read_twice_witness :
  let run := loadDotEnvFiles (fixtureHost fxFour (Some "local")) "/app" None in
  NoDup [ ".env.production.local"; ".env.production"; ".env.local"; ".env" ]
  ∧ accessed (trace run) !! 1 = Some "/app/.env.local"
  ∧ accessed (trace run) !! 2 = Some "/app/.env.local"
  ∧ ∃ before after,
      configured (trace run)
      = before ++ ("/app/.env.local", false) :: ("/app/.env.local", false) :: after.
Proof.
  intros run.
  destruct (local_candidate_read_twice (fixtureHost fxFour (Some "production")) "/app" None)
    as (_ & Hprod & _).
  destruct (local_candidate_read_twice (fixtureHost fxFour (Some "local")) "/app" None)
    as (_ & _ & Hlocal).
  split; [by apply Hprod|].
  destruct (Hlocal eq_refl) as (H1 & H2 & Htwice).
  split; [exact H1|]. split; [exact H2|]. apply Htwice. by_evaluation.
Defined.
